(** * Two-sum: four implementations and their specification

    A shallow embedding of the four [two_sum] functions of
    [coding-challenges/template/] ([david.py], [joseantonio.py], [jp.py],
    [patrick.py]) together with the properties stated about them.

    Python integers are unbounded, so values and the target are [Z].
    Indices produced by [enumerate] and [range] are natural numbers; the
    two pointers of [patrick.py] are [Z] because [len(nums) - 1] is [-1]
    on the empty list.  Subscripting is fallible ([IndexError],
    [KeyError]) and the [while] loop is given fuel, so that "returns a
    list" is a statement to be proved and not a property of the model. *)

From stdpp Require Import base list gmap sorting.
From Stdlib Require Import ZArith Lia.

Local Open Scope Z_scope.

(** ** A small model of the Python constructs the four files use *)

Module Py.

Inductive exn : Set := IndexError | KeyError.

(** Outcome of running a function body: a returned value, a raised
    exception, or a loop that was cut short by the fuel bound. *)
Inductive res (A : Type) : Type :=
| Ok (a : A)
| Raise (e : exn)
| OutOfFuel.
Arguments Ok {A} a.
Arguments Raise {A} e.
Arguments OutOfFuel {A}.

#[export] Instance res_bind : MBind res := λ A B k m,
  match m with
  | Ok a => k a
  | Raise e => Raise e
  | OutOfFuel => OutOfFuel
  end.

(** [enumerate(l)]: the elements of [l] paired with their positions. *)
Fixpoint enumerate_from {A} (start : nat) (l : list A) : list (nat * A) :=
  match l with
  | [] => []
  | x :: l' => (start, x) :: enumerate_from (S start) l'
  end.
Definition enumerate {A} (l : list A) : list (nat * A) := enumerate_from 0 l.

(** [range(start, stop)] for non-negative bounds. *)
Definition range (start stop : nat) : list nat := seq start (stop - start).

(** [l[i]] for an index that is a natural number. *)
Definition getitem {A} (l : list A) (i : nat) : res A :=
  match l !! i with
  | Some x => Ok x
  | None => Raise IndexError
  end.

(** [l[i]] for an arbitrary integer: a negative index counts from the
    end, anything outside [-len(l) .. len(l) - 1] raises [IndexError]. *)
Definition getitemZ {A} (l : list A) (i : Z) : res A :=
  let i' := if i <? 0 then i + Z.of_nat (length l) else i in
  if i' <? 0 then Raise IndexError else getitem l (Z.to_nat i').

(** [k in d] and [d[k]] on a dict from integers to indices. *)
Definition contains (d : gmap Z nat) (k : Z) : bool :=
  bool_decide (is_Some (d !! k)).
Definition dict_getitem (d : gmap Z nat) (k : Z) : res nat :=
  match d !! k with
  | Some v => Ok v
  | None => Raise KeyError
  end.

(** [sorted(l, key=key)].  Python's sort is stable, and the stable
    ordering of a list by an integer key is unique; insertion from the
    right, placing an element before the first one whose key is not
    smaller, computes it. *)
Fixpoint insert_by {A} (key : A → Z) (x : A) (l : list A) : list A :=
  match l with
  | [] => [x]
  | y :: l' => if key x <=? key y then x :: y :: l' else y :: insert_by key x l'
  end.
Definition sorted {A} (key : A → Z) (l : list A) : list A :=
  foldr (insert_by key) [] l.

End Py.

Import Py.

(** ** david.py — hash map, single pass *)

Module David.

(** The body of [for i, num in enumerate(nums)], with the dict
    [num_map] threaded through the iterations. *)
Fixpoint for_loop (target : Z) (num_map : gmap Z nat) (items : list (nat * Z))
  : res (list nat) :=
  match items with
  | [] => Ok []
  | (i, num) :: items' =>
      let complement := target - num in
      if contains num_map complement then
        k ← dict_getitem num_map complement; Ok [k; i]
      else for_loop target (<[num := i]> num_map) items'
  end.

Definition two_sum (nums : list Z) (target : Z) : res (list nat) :=
  for_loop target ∅ (enumerate nums).

End David.

(** ** joseantonio.py — hash map, single pass *)

Module JoseAntonio.

Fixpoint for_loop (target : Z) (seen : gmap Z nat) (items : list (nat * Z))
  : res (list nat) :=
  match items with
  | [] => Ok []
  | (index, value) :: items' =>
      let diff := target - value in
      if contains seen diff then
        k ← dict_getitem seen diff; Ok [k; index]
      else for_loop target (<[value := index]> seen) items'
  end.

Definition two_sum (nums : list Z) (target : Z) : res (list nat) :=
  for_loop target ∅ (enumerate nums).

End JoseAntonio.

(** ** jp.py — brute force over all pairs *)

Module JP.

(** [for j in range(i + 1, len(nums))]; [after] is what runs when the
    loop finishes without returning. *)
Fixpoint for_j (nums : list Z) (target : Z) (i : nat) (js : list nat)
    (after : res (list nat)) : res (list nat) :=
  match js with
  | [] => after
  | j :: js' =>
      a ← getitem nums i;
      b ← getitem nums j;
      if a + b =? target then Ok [i; j]
      else for_j nums target i js' after
  end.

(** [for i in range(len(nums))], followed by the final [return []]. *)
Fixpoint for_i (nums : list Z) (target : Z) (idxs : list nat) : res (list nat) :=
  match idxs with
  | [] => Ok []
  | i :: idxs' =>
      for_j nums target i (range (i + 1) (length nums)) (for_i nums target idxs')
  end.

Definition two_sum (nums : list Z) (target : Z) : res (list nat) :=
  for_i nums target (range 0 (length nums)).

End JP.

(** ** patrick.py — sort, then two pointers *)

Module Patrick.

(** [while left < right: ...] followed by the final [return []].  Each
    iteration uses one unit of fuel. *)
Fixpoint while_loop (fuel : nat) (sorted_nums : list (nat * Z)) (target : Z)
    (left right : Z) : res (list nat) :=
  if left <? right then
    match fuel with
    | O => OutOfFuel
    | S fuel' =>
        l ← getitemZ sorted_nums left;
        r ← getitemZ sorted_nums right;
        let current_sum := l.2 + r.2 in
        if current_sum =? target then
          Ok (sorted Z.of_nat [l.1; r.1])
        else if current_sum <? target then
          while_loop fuel' sorted_nums target (left + 1) right
        else
          while_loop fuel' sorted_nums target left (right - 1)
    end
  else Ok [].

Definition two_sum_fuel (fuel : nat) (nums : list Z) (target : Z) : res (list nat) :=
  let sorted_nums := sorted snd (enumerate nums) in
  while_loop fuel sorted_nums target 0 (Z.of_nat (length nums) - 1).

(** The pointers start [len(nums) - 1] apart and move one step closer
    in each iteration, so [len(nums)] iterations are enough
    ([Patrick_two_sum_fuel_enough] below). *)
Definition two_sum (nums : list Z) (target : Z) : res (list nat) :=
  two_sum_fuel (length nums) nums target.

End Patrick.

(** ** The four variants side by side *)

Inductive variant : Set := david | joseantonio | jp | patrick.

Definition two_sum (v : variant) : list Z → Z → res (list nat) :=
  match v with
  | david => David.two_sum
  | joseantonio => JoseAntonio.two_sum
  | jp => JP.two_sum
  | patrick => Patrick.two_sum
  end.

Definition hash_map_variant (v : variant) : Prop := v = david ∨ v = joseantonio.

(** ** Specification vocabulary *)

(** The values at positions [i] and [j] exist and add up to [target]. *)
Definition sums_to (nums : list Z) (target : Z) (i j : nat) : Prop :=
  ∃ a b, nums !! i = Some a ∧ nums !! j = Some b ∧ a + b = target.

(** A solution: two distinct positions whose values add up to [target]. *)
Definition valid_pair (nums : list Z) (target : Z) (i j : nat) : Prop :=
  i ≠ j ∧ sums_to nums target i j.

(** Normalisation of a result: the returned indices sorted ascending. *)
Definition normalize (r : res (list nat)) : res (list nat) :=
  l ← r; Ok (sorted Z.of_nat l).

(** Order on list entries induced by an integer key. *)
Definition key_le {A} (key : A → Z) (a b : A) : Prop := key a ≤ key b.

(** No solution among the positions of [nums]. *)
Definition no_pair (nums : list Z) (target : Z) : Prop :=
  ∀ i j, (i < j)%nat → ¬ sums_to nums target i j.

(** The dict after the prefix [pre] has been scanned: its keys are the
    values of [pre], each mapped to the last position where it occurs. *)
Definition dict_tracks (pre : list Z) (d : gmap Z nat) : Prop :=
  (∀ v k, d !! v = Some k →
     pre !! k = Some v ∧ ∀ k', pre !! k' = Some v → (k' ≤ k)%nat) ∧
  (∀ k v, pre !! k = Some v → is_Some (d !! v)).

(** What a single left-to-right scan with a last-index dict returns. *)
Definition scan_result (nums : list Z) (target : Z) (r : res (list nat)) : Prop :=
  (r = Ok [] ∧ no_pair nums target) ∨
  ∃ i j, r = Ok [i; j] ∧ (i < j)%nat ∧ sums_to nums target i j ∧
    (∀ i' j', (i' < j')%nat → sums_to nums target i' j' → (j ≤ j')%nat) ∧
    (∀ i', (i' < j)%nat → sums_to nums target i' j → (i' ≤ i)%nat).

(** [(i, j)] comes no later than [(i', j')] in row-major order. *)
Definition row_major_le (i j i' j' : nat) : Prop :=
  (i < i')%nat ∨ (i = i' ∧ (j ≤ j')%nat).

(** What the double loop returns: nothing when there is no solution,
    otherwise the first solution in row-major order. *)
Definition first_pair_result (nums : list Z) (target : Z) (r : res (list nat)) : Prop :=
  (r = Ok [] ∧ no_pair nums target) ∨
  ∃ i j, r = Ok [i; j] ∧ (i < j)%nat ∧ sums_to nums target i j ∧
    ∀ i' j', (i' < j')%nat → sums_to nums target i' j' → row_major_le i j i' j'.

(** The entries at positions [p] and [q] of the sorted list of
    (index, value) pairs have values that add up to [target]. *)
Definition pos_sum (s : list (nat * Z)) (target : Z) (p q : nat) : Prop :=
  ∃ e1 e2, s !! p = Some e1 ∧ s !! q = Some e2 ∧ e1.2 + e2.2 = target.

(** What the two-pointer scan returns: nothing when there is no
    solution, otherwise some solution with its indices in ascending order. *)
Definition some_pair_result (nums : list Z) (target : Z) (r : res (list nat)) : Prop :=
  (r = Ok [] ∧ no_pair nums target) ∨
  ∃ i j, r = Ok [i; j] ∧ (i < j)%nat ∧ sums_to nums target i j.

(** The statement of C4 as written: when a solution exists, the returned
    pair is the lexicographically smallest solution [(i, j)], [i < j]. *)
Definition returns_lex_earliest (v : variant) (nums : list Z) (target : Z) : Prop :=
  (∃ i j, valid_pair nums target i j) →
  ∃ i j, two_sum v nums target = Ok [i; j] ∧ (i < j)%nat ∧
    sums_to nums target i j ∧
    ∀ i' j', (i' < j')%nat → sums_to nums target i' j' → row_major_le i j i' j'.

(** The order in which [patrick.py] meets the entries of its sorted list
    of (index, value) pairs: by value, and by index among equal values. *)
Definition entry_lt (e1 e2 : nat * Z) : Prop :=
  e1.2 < e2.2 ∨ (e1.2 = e2.2 ∧ (e1.1 < e2.1)%nat).

Definition entry_le (e1 e2 : nat * Z) : Prop := e1 = e2 ∨ entry_lt e1 e2.

(** ** Facts about the Python prelude *)

Section prelude_facts.
Context {A : Type}.
Implicit Types (l : list A) (key : A → Z).

Lemma enumerate_from_lookup l start i :
  enumerate_from start l !! i = (λ x, ((start + i)%nat, x)) <$> l !! i.
Proof.
  revert start i. induction l as [|x l IH]; intros start [|i]; simpl; try done.
  - by rewrite Nat.add_0_r.
  - rewrite IH. by replace (S start + i)%nat with (start + S i)%nat by lia.
Qed.

Lemma enumerate_lookup l i : enumerate l !! i = (λ x, (i, x)) <$> l !! i.
Proof. unfold enumerate. by rewrite enumerate_from_lookup. Qed.

Lemma enumerate_from_length l start : length (enumerate_from start l) = length l.
Proof. revert start. induction l; intros; simpl; auto. Qed.

Lemma enumerate_from_fst l start :
  (enumerate_from start l).*1 = seq start (length l).
Proof. revert start. induction l; intros; simpl; f_equal; auto. Qed.

Lemma elem_of_enumerate l k x : (k, x) ∈ enumerate l ↔ l !! k = Some x.
Proof.
  rewrite list_elem_of_lookup. split.
  - intros [i Hi]. rewrite enumerate_lookup in Hi.
    destruct (l !! i) eqn:E; simplify_eq/=. done.
  - intros Hk. exists k. rewrite enumerate_lookup, Hk. done.
Qed.

Lemma insert_by_perm key x l : insert_by key x l ≡ₚ x :: l.
Proof.
  induction l as [|y l IH]; simpl; [done|].
  destruct (key x <=? key y); [done|]. rewrite IH. apply Permutation_swap.
Qed.

Lemma sorted_perm key l : sorted key l ≡ₚ l.
Proof.
  induction l as [|x l IH]; simpl; [done|].
  unfold sorted in *. simpl. rewrite insert_by_perm. by f_equiv.
Qed.

Lemma sorted_length key l : length (sorted key l) = length l.
Proof. by rewrite sorted_perm. Qed.

Lemma insert_by_sorted key x l :
  StronglySorted (key_le key) l → StronglySorted (key_le key) (insert_by key x l).
Proof.
  induction 1 as [|y l Hl IH Hy]; simpl.
  - repeat constructor.
  - destruct (Z.leb_spec (key x) (key y)) as [Hxy|Hxy].
    + constructor; [by constructor|].
      constructor; [done|].
      eapply Forall_impl; [exact Hy|]. unfold key_le. intros; lia.
    + constructor; [done|].
      rewrite insert_by_perm. constructor; [unfold key_le; lia | done].
Qed.

Lemma sorted_sorted key l : StronglySorted (key_le key) (sorted key l).
Proof.
  induction l as [|x l IH]; [constructor|].
  apply insert_by_sorted, IH.
Qed.

(** Stability: elements with the same key keep their relative order. *)
Lemma insert_by_filter key x l (c : Z) :
  StronglySorted (key_le key) l →
  filter (λ a, key a = c) (insert_by key x l) = filter (λ a, key a = c) (x :: l).
Proof.
  induction 1 as [|y l Hl IH Hy]; simpl; [done|].
  destruct (Z.leb_spec (key x) (key y)) as [Hxy|Hxy]; [done|].
  rewrite !filter_cons in *.
  destruct (decide (key y = c)), (decide (key x = c)); try lia; by rewrite IH.
Qed.

Lemma sorted_stable key l (c : Z) :
  filter (λ a, key a = c) (sorted key l) = filter (λ a, key a = c) l.
Proof.
  induction l as [|x l IH]; [done|].
  unfold sorted in *. simpl.
  rewrite insert_by_filter by apply sorted_sorted.
  rewrite !filter_cons. by rewrite IH.
Qed.

Lemma StronglySorted_lookup_le (R : relation A) l p q a b :
  StronglySorted R l → (p < q)%nat → l !! p = Some a → l !! q = Some b → R a b.
Proof.
  intros Hs. revert p q. induction Hs as [|x l Hl IH Hx]; intros p q Hpq Hp Hq.
  - done.
  - destruct q as [|q]; [lia|]. simpl in Hq. destruct p as [|p]; simpl in Hp.
    + simplify_eq. rewrite Forall_forall in Hx. apply Hx.
      by eapply list_elem_of_lookup_2.
    + eapply (IH p q); [lia|done..].
Qed.

Lemma getitem_Some l i x : l !! i = Some x → getitem l i = Ok x.
Proof. unfold getitem. by intros ->. Qed.

Lemma getitemZ_Some l (i : Z) x :
  0 ≤ i → l !! Z.to_nat i = Some x → getitemZ l i = Ok x.
Proof.
  intros Hi Hx. unfold getitemZ.
  destruct (Z.ltb_spec i 0); [lia|].
  destruct (Z.ltb_spec i 0); [lia|]. by apply getitem_Some.
Qed.

End prelude_facts.

Lemma sorted_pair (a b : nat) :
  (a < b)%nat → sorted Z.of_nat [a; b] = [a; b] ∧ sorted Z.of_nat [b; a] = [a; b].
Proof.
  intros Hab. unfold sorted. simpl.
  destruct (Z.leb_spec (Z.of_nat a) (Z.of_nat b)); [|lia].
  destruct (Z.leb_spec (Z.of_nat b) (Z.of_nat a)); [lia|]. done.
Qed.

(** ** The hash-map variants *)

Lemma dict_tracks_empty : dict_tracks [] ∅.
Proof. split; intros ??; [rewrite lookup_empty | rewrite lookup_nil]; done. Qed.

Lemma dict_tracks_insert pre d num :
  dict_tracks pre d → dict_tracks (pre ++ [num]) (<[num := length pre]> d).
Proof.
  intros [Hlast Hkeys]. split.
  - intros v k. rewrite lookup_insert. case_decide as Hv.
    + intros [= <-]. subst v. split; [by rewrite list_lookup_middle|].
      intros k' Hk'. apply lookup_lt_Some in Hk'.
      rewrite length_app in Hk'. simpl in Hk'. lia.
    + intros Hk. destruct (Hlast _ _ Hk) as [Hpre Hmax].
      split; [by apply lookup_app_l_Some|].
      intros k' [Hk'|[Hlen Hk']]%lookup_app_Some; [by apply Hmax|].
      apply list_lookup_singleton_Some in Hk' as [_ ?]. congruence.
  - intros k v [Hk|[Hlen Hk]]%lookup_app_Some.
    + rewrite lookup_insert_is_Some. destruct (decide (num = v)); eauto.
    + apply list_lookup_singleton_Some in Hk as [_ ->].
      rewrite lookup_insert_eq. eauto.
Qed.

Lemma no_pair_snoc pre d num target :
  dict_tracks pre d → no_pair pre target → d !! (target - num) = None →
  no_pair (pre ++ [num]) target.
Proof.
  intros [_ Hkeys] Hno Hnone i j Hij (a & b & Ha & Hb & Hsum).
  apply lookup_app_Some in Hb as [Hb|[Hlen Hb]].
  - apply lookup_lt_Some in Hb as Hj.
    rewrite lookup_app_l in Ha by lia.
    apply (Hno i j Hij). by exists a, b.
  - apply list_lookup_singleton_Some in Hb as [Hj ->].
    rewrite lookup_app_l in Ha by lia.
    destruct (Hkeys _ _ Ha) as [k Hk].
    replace a with (target - b) in Hk by lia. congruence.
Qed.

Lemma David_for_loop_spec rest : ∀ pre d target,
  dict_tracks pre d → no_pair pre target →
  scan_result (pre ++ rest) target
    (David.for_loop target d (enumerate_from (length pre) rest)).
Proof.
  induction rest as [|num rest IH]; intros pre d target Hd Hno; simpl.
  { left. by rewrite app_nil_r. }
  unfold contains. case_bool_decide as Hc.
  - destruct Hc as [k Hk]. unfold dict_getitem. rewrite Hk. simpl.
    destruct Hd as [Hlast _]. destruct (Hlast _ _ Hk) as [Hpre Hmax].
    apply lookup_lt_Some in Hpre as Hlt.
    right. exists k, (length pre). split_and!; [done|done|..].
    + exists (target - num), num.
      rewrite lookup_app_l by done. rewrite list_lookup_middle by done.
      split_and!; [done|done|lia].
    + intros i' j' Hij (a & b & Ha & Hb & Hsum).
      destruct (decide (length pre ≤ j')%nat); [done|].
      rewrite lookup_app_l in Ha, Hb by lia.
      destruct (Hno i' j' Hij). by exists a, b.
    + intros i' Hi' (a & b & Ha & Hb & Hsum).
      rewrite list_lookup_middle in Hb by done. simplify_eq.
      rewrite lookup_app_l in Ha by done.
      apply Hmax. rewrite Ha. f_equal. lia.
  - apply eq_None_not_Some in Hc.
    specialize (IH (pre ++ [num]) (<[num := length pre]> d) target).
    rewrite length_app, <- app_assoc in IH. simpl in IH.
    rewrite Nat.add_1_r in IH.
    apply IH; [by apply dict_tracks_insert | by eapply no_pair_snoc].
Qed.

Lemma no_pair_nil target : no_pair [] target.
Proof. intros i j _ (a & b & Ha & _). by rewrite lookup_nil in Ha. Qed.

Lemma David_two_sum_spec nums target :
  scan_result nums target (David.two_sum nums target).
Proof.
  apply (David_for_loop_spec nums [] ∅ target);
    [apply dict_tracks_empty | apply no_pair_nil].
Qed.

Lemma JoseAntonio_for_loop_eq target items : ∀ d,
  JoseAntonio.for_loop target d items = David.for_loop target d items.
Proof.
  induction items as [|[i num] items IH]; intros d; simpl; [done|].
  destruct (contains d (target - num)); [done | apply IH].
Qed.

Lemma JoseAntonio_two_sum_spec nums target :
  scan_result nums target (JoseAntonio.two_sum nums target).
Proof.
  unfold JoseAntonio.two_sum. rewrite JoseAntonio_for_loop_eq.
  apply David_two_sum_spec.
Qed.

(** ** The brute-force variant *)

Lemma sums_to_lt nums target i j :
  sums_to nums target i j → (i < length nums)%nat ∧ (j < length nums)%nat.
Proof. intros (a & b & Ha & Hb & _). split; by eapply lookup_lt_Some. Qed.

Lemma JP_for_j_spec nums target i a after n : ∀ s,
  nums !! i = Some a → (s + n ≤ length nums)%nat →
  (JP.for_j nums target i (seq s n) after = after ∧
   ∀ j, (s ≤ j < s + n)%nat → ¬ sums_to nums target i j) ∨
  (∃ j, (s ≤ j < s + n)%nat ∧ sums_to nums target i j ∧
     (∀ j', (s ≤ j' < j)%nat → ¬ sums_to nums target i j') ∧
     JP.for_j nums target i (seq s n) after = Ok [i; j]).
Proof.
  induction n as [|n IH]; intros s Ha Hlen; simpl.
  { left. split; [done | intros; lia]. }
  destruct (lookup_lt_is_Some_2 nums s) as [b Hb]; [lia|].
  rewrite (getitem_Some _ _ _ Ha), (getitem_Some _ _ _ Hb). simpl.
  destruct (Z.eqb_spec (a + b) target) as [Hsum|Hsum].
  - right. exists s. split_and!; [lia|lia|by exists a, b|intros; lia|done].
  - assert (Hs : ¬ sums_to nums target i s).
    { intros (a' & b' & Ha' & Hb' & ?). congruence. }
    destruct (IH (S s) Ha) as [[-> Hnone]|(j & Hj & Hsums & Hfirst & ->)]; [lia|..].
    + left. split; [done|]. intros j Hj.
      destruct (decide (j = s)) as [->|]; [done | apply Hnone; lia].
    + right. exists j. split_and!; [lia|lia|done| |done].
      intros j' Hj'. destruct (decide (j' = s)) as [->|]; [done | apply Hfirst; lia].
Qed.

Lemma JP_for_i_spec nums target n : ∀ s,
  (s + n = length nums)%nat →
  (JP.for_i nums target (seq s n) = Ok [] ∧
   ∀ i j, (s ≤ i < j)%nat → ¬ sums_to nums target i j) ∨
  (∃ i j, JP.for_i nums target (seq s n) = Ok [i; j] ∧
     (s ≤ i < j)%nat ∧ sums_to nums target i j ∧
     ∀ i' j', (s ≤ i' < j')%nat → sums_to nums target i' j' →
       row_major_le i j i' j').
Proof.
  induction n as [|n IH]; intros s Hlen; simpl.
  { left. split; [done|]. intros i j Hij [_ ?]%sums_to_lt. lia. }
  destruct (lookup_lt_is_Some_2 nums s) as [a Ha]; [lia|].
  unfold range.
  destruct (JP_for_j_spec nums target s a (JP.for_i nums target (seq (S s) n))
              (length nums - (s + 1)) (s + 1)%nat Ha)
    as [[-> Hnone]|(j & Hj & Hsums & Hfirst & ->)]; [lia|..].
  - assert (Hrow : ∀ j, (s < j)%nat → ¬ sums_to nums target s j).
    { intros j Hj Hs. apply sums_to_lt in Hs as Hlt. apply (Hnone j); [lia|done]. }
    destruct (IH (S s)) as [[-> Hno]|(i & j & -> & Hij & Hsums & Hfirst)]; [lia|..].
    + left. split; [done|]. intros i j Hij.
      destruct (decide (i = s)) as [->|]; [apply Hrow; lia | apply Hno; lia].
    + right. exists i, j. split_and!; [done|lia|lia|done|].
      intros i' j' Hij' Hs'. destruct (decide (i' = s)) as [->|].
      * destruct (Hrow j'); [lia|done].
      * apply Hfirst; [lia|done].
  - right. exists s, j. split_and!; [done|lia|lia|done|].
    intros i' j' Hij' Hs'. unfold row_major_le.
    destruct (decide (i' = s)) as [->|]; [|lia].
    right. split; [done|]. destruct (decide (j ≤ j')%nat); [done|].
    destruct (Hfirst j'); [lia|done].
Qed.

Lemma JP_two_sum_spec nums target :
  first_pair_result nums target (JP.two_sum nums target).
Proof.
  unfold JP.two_sum, range. rewrite Nat.sub_0_r.
  destruct (JP_for_i_spec nums target (length nums) 0%nat)
    as [[-> Hno]|(i & j & -> & Hij & Hsums & Hfirst)]; [done|..].
  - left. split; [done|]. intros i j Hij. apply Hno. lia.
  - right. exists i, j. split_and!; [done|lia|done|].
    intros i' j' Hij'. apply Hfirst. lia.
Qed.

(** ** The sort-and-two-pointer variant *)

Lemma Patrick_while_loop_fuel s target fuel1 : ∀ fuel2 left right,
  right - left ≤ Z.of_nat fuel1 → right - left ≤ Z.of_nat fuel2 →
  Patrick.while_loop fuel1 s target left right =
  Patrick.while_loop fuel2 s target left right.
Proof.
  induction fuel1 as [|fuel1 IH]; intros [|fuel2] left right H1 H2; simpl;
    destruct (Z.ltb_spec left right); try done; try lia.
  destruct (getitemZ s left) as [l| |]; simpl; [|done..].
  destruct (getitemZ s right) as [r| |]; simpl; [|done..].
  destruct (l.2 + r.2 =? target); [done|].
  destruct (l.2 + r.2 <? target); apply IH; lia.
Qed.

Lemma key_le_lookup (s : list (nat * Z)) p q e1 e2 :
  StronglySorted (key_le snd) s → (p ≤ q)%nat →
  s !! p = Some e1 → s !! q = Some e2 → e1.2 ≤ e2.2.
Proof.
  intros Hs Hpq Hp Hq. destruct (decide (p = q)) as [->|].
  - simplify_eq. lia.
  - eapply (StronglySorted_lookup_le (key_le snd) s p q); [done|lia|done..].
Qed.

Lemma Patrick_while_loop_spec s target fuel : ∀ left right,
  StronglySorted (key_le snd) s →
  0 ≤ left → right < Z.of_nat (length s) → right - left ≤ Z.of_nat fuel →
  (∀ p q, (p < q)%nat → pos_sum s target p q →
     left ≤ Z.of_nat p ∧ Z.of_nat q ≤ right) →
  (Patrick.while_loop fuel s target left right = Ok [] ∧
   ∀ p q, (p < q)%nat → ¬ pos_sum s target p q) ∨
  (∃ p q e1 e2, (p < q)%nat ∧ s !! p = Some e1 ∧ s !! q = Some e2 ∧
     e1.2 + e2.2 = target ∧
     Patrick.while_loop fuel s target left right = Ok (sorted Z.of_nat [e1.1; e2.1])).
Proof.
  assert (Hstop : ∀ left right,
    (∀ p q, (p < q)%nat → pos_sum s target p q →
       left ≤ Z.of_nat p ∧ Z.of_nat q ≤ right) →
    right ≤ left → ∀ p q, (p < q)%nat → ¬ pos_sum s target p q).
  { intros left right Hinv Hge p q Hpq Hsum. destruct (Hinv p q Hpq Hsum). lia. }
  induction fuel as [|fuel IH]; intros left right Hs Hl Hr Hfuel Hinv;
    cbn [Patrick.while_loop];
    destruct (Z.ltb_spec left right) as [Hlt|Hge]; [lia|eauto|..|eauto].
  destruct (lookup_lt_is_Some_2 s (Z.to_nat left)) as [e1 He1]; [lia|].
  destruct (lookup_lt_is_Some_2 s (Z.to_nat right)) as [e2 He2]; [lia|].
  rewrite (getitemZ_Some s left e1), (getitemZ_Some s right e2) by (done || lia).
  simpl.
  destruct (Z.eqb_spec (e1.2 + e2.2) target) as [Heq|Hne].
  { right. exists (Z.to_nat left), (Z.to_nat right), e1, e2.
    split_and!; [lia|done..]. }
  destruct (Z.ltb_spec (e1.2 + e2.2) target) as [Hsmall|Hbig].
  - apply IH; [done|lia|lia|lia|].
    intros p q Hpq Hsum. destruct (Hinv p q Hpq Hsum) as [Hp Hq].
    split; [|done]. destruct (decide (Z.of_nat p = left)) as [Hpl|]; [|lia].
    destruct Hsum as (e1' & e2' & Hp' & Hq' & Hsum). exfalso.
    replace p with (Z.to_nat left) in Hp' by lia. simplify_eq.
    assert (e2'.2 ≤ e2.2); [|lia].
    eapply (key_le_lookup s q (Z.to_nat right)); [done|lia|done..].
  - apply IH; [done|lia|lia|lia|].
    intros p q Hpq Hsum. destruct (Hinv p q Hpq Hsum) as [Hp Hq].
    split; [done|]. destruct (decide (Z.of_nat q = right)) as [Hqr|]; [|lia].
    destruct Hsum as (e1' & e2' & Hp' & Hq' & Hsum). exfalso.
    replace q with (Z.to_nat right) in Hq' by lia. simplify_eq.
    assert (e1.2 ≤ e1'.2); [|lia].
    eapply (key_le_lookup s (Z.to_nat left) p); [done|lia|done..].
Qed.

Section sorted_nums_facts.
Variable nums : list Z.
Let s := sorted snd (enumerate nums).

Lemma sorted_nums_lookup p k x : s !! p = Some (k, x) → nums !! k = Some x.
Proof.
  intros Hp. apply elem_of_enumerate.
  rewrite <- (sorted_perm snd (enumerate nums)).
  by eapply list_elem_of_lookup_2.
Qed.

Lemma sorted_nums_find k x : nums !! k = Some x → ∃ p, s !! p = Some (k, x).
Proof.
  intros Hk. apply list_elem_of_lookup.
  unfold s. rewrite sorted_perm. by apply elem_of_enumerate.
Qed.

Lemma sorted_nums_NoDup : NoDup (s.*1).
Proof.
  unfold s. rewrite sorted_perm. unfold enumerate.
  rewrite enumerate_from_fst. apply NoDup_seq.
Qed.

Lemma sorted_nums_inj p q k x y :
  s !! p = Some (k, x) → s !! q = Some (k, y) → p = q.
Proof.
  intros Hp Hq. apply (NoDup_lookup (s.*1) p q k sorted_nums_NoDup);
    rewrite list_lookup_fmap; [by rewrite Hp | by rewrite Hq].
Qed.

Lemma sorted_nums_length : length s = length nums.
Proof. unfold s, enumerate. by rewrite sorted_length, enumerate_from_length. Qed.

End sorted_nums_facts.

Lemma Patrick_two_sum_spec nums target :
  some_pair_result nums target (Patrick.two_sum nums target).
Proof.
  unfold Patrick.two_sum, Patrick.two_sum_fuel.
  destruct (Patrick_while_loop_spec (sorted snd (enumerate nums)) target
              (length nums) 0 (Z.of_nat (length nums) - 1))
    as [[-> Hno]|(p & q & [k1 x] & [k2 y] & Hpq & Hp & Hq & Hsum & ->)].
  - apply sorted_sorted.
  - lia.
  - rewrite sorted_nums_length. lia.
  - lia.
  - intros p q Hpq (e1 & e2 & Hp & Hq & _).
    apply lookup_lt_Some in Hq. rewrite sorted_nums_length in Hq. lia.
  - left. split; [done|]. intros i j Hij (a & b & Ha & Hb & Hsum).
    destruct (sorted_nums_find nums i a Ha) as [p Hp].
    destruct (sorted_nums_find nums j b Hb) as [q Hq].
    destruct (lt_eq_lt_dec p q) as [[Hlt| ->]|Hlt].
    + apply (Hno p q Hlt). exists (i, a), (j, b). done.
    + rewrite Hp in Hq. simplify_eq. lia.
    + apply (Hno q p Hlt). exists (j, b), (i, a). split_and!; [done|done|simpl; lia].
  - right. cbn [fst snd] in *.
    apply sorted_nums_lookup in Hp as Hx. apply sorted_nums_lookup in Hq as Hy.
    destruct (lt_eq_lt_dec k1 k2) as [[Hlt| ->]|Hlt].
    + exists k1, k2. destruct (sorted_pair k1 k2 Hlt) as [-> _].
      split_and!; [done|done|]. by exists x, y.
    + pose proof (sorted_nums_inj nums p q k2 x y Hp Hq). lia.
    + exists k2, k1. destruct (sorted_pair k2 k1 Hlt) as [_ ->].
      split_and!; [done|done|]. exists y, x. split_and!; [done|done|lia].
Qed.

Lemma Patrick_two_sum_fuel_enough nums target fuel :
  (length nums ≤ fuel)%nat →
  Patrick.two_sum_fuel fuel nums target = Patrick.two_sum nums target.
Proof.
  intros Hfuel. unfold Patrick.two_sum, Patrick.two_sum_fuel.
  apply Patrick_while_loop_fuel; lia.
Qed.

(** ** Properties shared by the four variants *)

Lemma sums_to_sym nums target i j :
  sums_to nums target i j → sums_to nums target j i.
Proof. intros (a & b & Ha & Hb & Hsum). exists b, a. split_and!; [done|done|lia]. Qed.

Lemma no_pair_iff nums target :
  no_pair nums target ↔ ¬ ∃ i j, valid_pair nums target i j.
Proof.
  split.
  - intros Hno (i & j & Hne & Hsum).
    destruct (lt_eq_lt_dec i j) as [[Hlt|Heq]|Hlt]; [|done|].
    + by apply (Hno i j Hlt).
    + by apply (Hno j i Hlt), sums_to_sym.
  - intros Hnone i j Hij Hsum. apply Hnone. exists i, j. split; [lia|done].
Qed.

Lemma scan_result_some_pair nums target r :
  scan_result nums target r → some_pair_result nums target r.
Proof.
  intros [?|(i & j & ? & ? & ? & _)]; [by left|]. right. by exists i, j.
Qed.

Lemma first_pair_result_some_pair nums target r :
  first_pair_result nums target r → some_pair_result nums target r.
Proof.
  intros [?|(i & j & ? & ? & ? & _)]; [by left|]. right. by exists i, j.
Qed.

Lemma hash_map_scan_result v nums target :
  hash_map_variant v → scan_result nums target (two_sum v nums target).
Proof.
  intros [-> | ->]; [apply David_two_sum_spec | apply JoseAntonio_two_sum_spec].
Qed.

Lemma two_sum_some_pair v nums target :
  some_pair_result nums target (two_sum v nums target).
Proof.
  destruct v; simpl.
  - apply scan_result_some_pair, David_two_sum_spec.
  - apply scan_result_some_pair, JoseAntonio_two_sum_spec.
  - apply first_pair_result_some_pair, JP_two_sum_spec.
  - apply Patrick_two_sum_spec.
Qed.

Lemma some_pair_result_nonempty nums target r l :
  some_pair_result nums target r → r = Ok l → l ≠ [] →
  ∃ i j, l = [i; j] ∧ (i < j)%nat ∧ sums_to nums target i j.
Proof.
  intros [[-> _]|(i & j & -> & Hij & Hsum)] [= <-] Hne; [done|].
  by exists i, j.
Qed.

Lemma some_pair_result_found nums target r :
  some_pair_result nums target r → (∃ i j, valid_pair nums target i j) →
  ∃ i j, r = Ok [i; j] ∧ (i < j)%nat ∧ sums_to nums target i j.
Proof.
  intros [[_ Hno]|Hfound] Hex; [|done].
  by apply no_pair_iff in Hno.
Qed.

(** ** The stated properties *)

(** C1 — Soundness, all four variants: whenever [two_sum] returns a
    non-empty list, that list is a pair of indices [[i; j]] with [i ≠ j],
    both within the bounds of [nums], and [nums[i] + nums[j] = target]. *)
Theorem two_sum_sound v nums target r :
  two_sum v nums target = Ok r → r ≠ [] →
  ∃ i j a b, r = [i; j] ∧ i ≠ j ∧
    (i < length nums)%nat ∧ (j < length nums)%nat ∧
    nums !! i = Some a ∧ nums !! j = Some b ∧ a + b = target.
Proof.
  intros Hr Hne.
  destruct (some_pair_result_nonempty nums target _ r
              (two_sum_some_pair v nums target) Hr Hne)
    as (i & j & -> & Hij & Hsum).
  destruct (sums_to_lt _ _ _ _ Hsum) as [Hi Hj].
  destruct Hsum as (a & b & Ha & Hb & Hsum).
  exists i, j, a, b. split_and!; [done|lia|done..].
Qed.

Lemma two_sum_sound_witness :
  two_sum patrick [3; 2; 4] 6 = Ok [1; 2]%nat ∧ [1; 2]%nat ≠ [] ∧
  ∃ i j a b, [1; 2]%nat = [i; j] ∧ i ≠ j ∧
    (i < length [3; 2; 4])%nat ∧ (j < length [3; 2; 4])%nat ∧
    [3; 2; 4] !! i = Some a ∧ [3; 2; 4] !! j = Some b ∧ a + b = 6.
Proof.
  assert (H1 : two_sum patrick [3; 2; 4] 6 = Ok [1; 2]%nat) by reflexivity.
  assert (H2 : [1; 2]%nat ≠ []) by discriminate.
  split; [exact H1|]. split; [exact H2|].
  exact (two_sum_sound patrick [3; 2; 4] 6 [1; 2]%nat H1 H2).
Defined.

(** C2 — Completeness and silent not-found, all four variants: [two_sum]
    returns the empty list exactly when no two distinct indices have
    values adding up to [target]; and it always returns a list, so the
    not-found case raises no exception (and the loop terminates). *)
Theorem two_sum_complete v nums target :
  (two_sum v nums target = Ok [] ↔ ¬ ∃ i j, valid_pair nums target i j) ∧
  (∃ r, two_sum v nums target = Ok r).
Proof.
  destruct (two_sum_some_pair v nums target)
    as [[Hr Hno]|(i & j & Hr & Hij & Hsum)]; rewrite Hr.
  - split; [|by eexists]. split; [intros _; by apply no_pair_iff | done].
  - split; [|by eexists]. split; [done|].
    intros Hnone. destruct Hnone. exists i, j. split; [lia|done].
Qed.

(** The not-found boundary case of the specification. *)
Example two_sum_not_found v : two_sum v [1; 2; 3] 100 = Ok [].
Proof. destruct v; reflexivity. Qed.

(** C3 — Cross-variant equivalence: when exactly one pair of distinct
    indices [{i, j}] (written with [i < j]) sums to [target], every
    variant returns that pair once its result is sorted ascending. *)
Theorem two_sum_unique_agree nums target i j :
  (i < j)%nat → sums_to nums target i j →
  (∀ i' j', (i' < j')%nat → sums_to nums target i' j' → i' = i ∧ j' = j) →
  ∀ v, normalize (two_sum v nums target) = Ok [i; j].
Proof.
  intros Hij Hsum Huniq v.
  destruct (some_pair_result_found nums target _ (two_sum_some_pair v nums target))
    as (i' & j' & -> & Hij' & Hsum').
  { exists i, j. split; [lia|done]. }
  destruct (Huniq i' j' Hij' Hsum') as [-> ->].
  change (Ok (sorted Z.of_nat [i; j]) = Ok [i; j]).
  by destruct (sorted_pair i j Hij) as [-> _].
Qed.

Lemma two_sum_unique_agree_witness :
  (0 < 1)%nat ∧ sums_to [3; 3] 6 0 1 ∧
  (∀ i' j', (i' < j')%nat → sums_to [3; 3] 6 i' j' → i' = 0%nat ∧ j' = 1%nat) ∧
  ∀ v, normalize (two_sum v [3; 3] 6) = Ok [0; 1]%nat.
Proof.
  assert (H1 : (0 < 1)%nat) by lia.
  assert (H2 : sums_to [3; 3] 6 0 1) by (exists 3, 3; split_and!; reflexivity).
  assert (H3 : ∀ i' j', (i' < j')%nat → sums_to [3; 3] 6 i' j' →
                 i' = 0%nat ∧ j' = 1%nat).
  { intros i' j' Hlt [_ Hj]%sums_to_lt. simpl in Hj. lia. }
  split_and!; [exact H1 | exact H2 | exact H3 |].
  exact (two_sum_unique_agree [3; 3] 6 0 1 H1 H2 H3).
Defined.

(** C4, as stated, fails for the hash-map variants.  On [[5; 1; 4; 0]]
    with target [5] the scan stops at position 2 with [[1; 2]] although
    [(0, 3)] is lexicographically smaller; on [[1; 1; 2]] with target [3]
    the dict holds the last position of value [1], so [[1; 2]] is returned
    although [(0, 2)] is a solution. *)
Lemma hash_map_not_lex_earliest :
  ¬ returns_lex_earliest david [5; 1; 4; 0] 5 ∧
  ¬ returns_lex_earliest david [1; 1; 2] 3.
Proof.
  split; intros Hclaim.
  - destruct Hclaim as (i & j & Hr & _ & _ & Hmin).
    { exists 0%nat, 3%nat. split; [lia|]. by exists 5, 0. }
    change (Ok [1; 2]%nat = Ok [i; j]) in Hr. simplify_eq.
    destruct (Hmin 0%nat 3%nat) as [?|[? _]]; [lia| by exists 5, 0 |lia..].
  - destruct Hclaim as (i & j & Hr & _ & _ & Hmin).
    { exists 0%nat, 2%nat. split; [lia|]. by exists 1, 2. }
    change (Ok [1; 2]%nat = Ok [i; j]) in Hr. simplify_eq.
    destruct (Hmin 0%nat 2%nat) as [?|[? _]]; [lia| by exists 1, 2 |lia..].
Qed.

(** C4 (amended) — Hash-map variants: when a solution exists, the
    returned pair [[i; j]] is a solution with [i < j] whose second index
    [j] is the smallest second index of any solution, and [i] is the
    largest index below [j] that forms a solution with [j]. *)
Theorem hash_map_earliest_second_index v nums target :
  hash_map_variant v → (∃ i j, valid_pair nums target i j) →
  ∃ i j, two_sum v nums target = Ok [i; j] ∧ (i < j)%nat ∧
    sums_to nums target i j ∧
    (∀ i' j', (i' < j')%nat → sums_to nums target i' j' → (j ≤ j')%nat) ∧
    (∀ i', (i' < j)%nat → sums_to nums target i' j → (i' ≤ i)%nat).
Proof.
  intros Hv Hex.
  destruct (hash_map_scan_result v nums target Hv) as [[_ Hno]|Hfound]; [|done].
  by apply no_pair_iff in Hno.
Qed.

Lemma hash_map_earliest_second_index_witness :
  hash_map_variant david ∧ (∃ i j, valid_pair [1; 1; 2] 3 i j) ∧
  ∃ i j, two_sum david [1; 1; 2] 3 = Ok [i; j] ∧ (i < j)%nat ∧
    sums_to [1; 1; 2] 3 i j ∧
    (∀ i' j', (i' < j')%nat → sums_to [1; 1; 2] 3 i' j' → (j ≤ j')%nat) ∧
    (∀ i', (i' < j)%nat → sums_to [1; 1; 2] 3 i' j → (i' ≤ i)%nat).
Proof.
  assert (H1 : hash_map_variant david) by (left; reflexivity).
  assert (H2 : ∃ i j, valid_pair [1; 1; 2] 3 i j).
  { exists 0%nat, 2%nat. split; [lia|]. exists 1, 2. split_and!; reflexivity. }
  split; [exact H1|]. split; [exact H2|].
  exact (hash_map_earliest_second_index david [1; 1; 2] 3 H1 H2).
Defined.

(** C5 — Brute-force variant: when a solution exists, the returned pair
    is the first solution [(i, j)], [i < j], in row-major order; that is,
    [i] is the smallest first index of any solution and [j] is the
    smallest partner of that [i]. *)
Theorem brute_force_first_pair nums target :
  (∃ i j, valid_pair nums target i j) →
  ∃ i j, two_sum jp nums target = Ok [i; j] ∧ (i < j)%nat ∧
    sums_to nums target i j ∧
    (∀ i' j', (i' < j')%nat → sums_to nums target i' j' → row_major_le i j i' j') ∧
    (∀ i' j', (i' < j')%nat → sums_to nums target i' j' → (i ≤ i')%nat) ∧
    (∀ j', (i < j')%nat → sums_to nums target i j' → (j ≤ j')%nat).
Proof.
  intros Hex.
  destruct (JP_two_sum_spec nums target)
    as [[_ Hno]|(i & j & Hr & Hij & Hsum & Hfirst)].
  { by apply no_pair_iff in Hno. }
  exists i, j. split_and!; [done..| |].
  - intros i' j' Hij' Hs. destruct (Hfirst i' j' Hij' Hs) as [?|[? _]]; lia.
  - intros j' Hij' Hs. destruct (Hfirst i j' Hij' Hs) as [?|[_ ?]]; lia.
Qed.

Lemma brute_force_first_pair_witness :
  (∃ i j, valid_pair [5; 1; 4; 0] 5 i j) ∧
  ∃ i j, two_sum jp [5; 1; 4; 0] 5 = Ok [i; j] ∧ (i < j)%nat ∧
    sums_to [5; 1; 4; 0] 5 i j ∧
    (∀ i' j', (i' < j')%nat → sums_to [5; 1; 4; 0] 5 i' j' →
       row_major_le i j i' j') ∧
    (∀ i' j', (i' < j')%nat → sums_to [5; 1; 4; 0] 5 i' j' → (i ≤ i')%nat) ∧
    (∀ j', (i < j')%nat → sums_to [5; 1; 4; 0] 5 i j' → (j ≤ j')%nat).
Proof.
  assert (H1 : ∃ i j, valid_pair [5; 1; 4; 0] 5 i j).
  { exists 1%nat, 2%nat. split; [lia|]. exists 1, 4. split_and!; reflexivity. }
  split; [exact H1|].
  exact (brute_force_first_pair [5; 1; 4; 0] 5 H1).
Defined.

(** C6 — Sort-and-two-pointer variant: a non-empty result is a pair of
    original indices in strictly ascending order. *)
Theorem two_pointer_result_ascending nums target r :
  two_sum patrick nums target = Ok r → r ≠ [] →
  ∃ i j, r = [i; j] ∧ (i < j)%nat.
Proof.
  intros Hr Hne.
  destruct (some_pair_result_nonempty nums target _ r
              (Patrick_two_sum_spec nums target) Hr Hne) as (i & j & ? & ? & _).
  by exists i, j.
Qed.

Lemma two_pointer_result_ascending_witness :
  two_sum patrick [4; 9; 2] 6 = Ok [0; 2]%nat ∧ [0; 2]%nat ≠ [] ∧
  ∃ i j, [0; 2]%nat = [i; j] ∧ (i < j)%nat.
Proof.
  assert (H1 : two_sum patrick [4; 9; 2] 6 = Ok [0; 2]%nat) by reflexivity.
  assert (H2 : [0; 2]%nat ≠ []) by discriminate.
  split; [exact H1|]. split; [exact H2|].
  exact (two_pointer_result_ascending [4; 9; 2] 6 [0; 2]%nat H1 H2).
Defined.

(** C7 — Hash-map variants: a non-empty result [[earlier; current]] has
    [earlier < current]; the dict only ever holds positions of the prefix
    already scanned ([dict_tracks]). *)
Theorem hash_map_result_ascending v nums target r :
  hash_map_variant v → two_sum v nums target = Ok r → r ≠ [] →
  ∃ i j, r = [i; j] ∧ (i < j)%nat.
Proof.
  intros Hv Hr Hne.
  destruct (some_pair_result_nonempty nums target _ r
              (scan_result_some_pair _ _ _ (hash_map_scan_result v nums target Hv))
              Hr Hne) as (i & j & ? & ? & _).
  by exists i, j.
Qed.

Lemma hash_map_result_ascending_witness :
  hash_map_variant joseantonio ∧
  two_sum joseantonio [3; 2; 4] 6 = Ok [1; 2]%nat ∧ [1; 2]%nat ≠ [] ∧
  ∃ i j, [1; 2]%nat = [i; j] ∧ (i < j)%nat.
Proof.
  assert (H1 : hash_map_variant joseantonio) by (right; reflexivity).
  assert (H2 : two_sum joseantonio [3; 2; 4] 6 = Ok [1; 2]%nat) by reflexivity.
  assert (H3 : [1; 2]%nat ≠ []) by discriminate.
  split_and!; [exact H1 | exact H2 | exact H3 |].
  exact (hash_map_result_ascending joseantonio [3; 2; 4] 6 [1; 2]%nat H1 H2 H3).
Defined.

(** C8 — The three demonstration calls, for each of the four variants:
    [two_sum([2,7,11,15], 9) = [0,1]], [two_sum([3,2,4], 6) = [1,2]] and
    [two_sum([3,3], 6) = [0,1]]. *)
Theorem two_sum_examples v :
  two_sum v [2; 7; 11; 15] 9 = Ok [0; 1]%nat ∧
  two_sum v [3; 2; 4] 6 = Ok [1; 2]%nat ∧
  two_sum v [3; 3] 6 = Ok [0; 1]%nat.
Proof. destruct v; split_and!; reflexivity. Qed.

(** C9 — The two hash-map files compute the same function. *)
Theorem david_joseantonio_equal nums target :
  David.two_sum nums target = JoseAntonio.two_sum nums target.
Proof.
  unfold David.two_sum, JoseAntonio.two_sum.
  symmetry. apply JoseAntonio_for_loop_eq.
Qed.

(** C10 — Inputs of length 0 or 1: every variant returns the empty list;
    no subscript is out of range and no exception is raised. *)
Theorem two_sum_short_input v nums target :
  (length nums ≤ 1)%nat → two_sum v nums target = Ok [].
Proof.
  intros Hlen.
  destruct (two_sum_some_pair v nums target)
    as [[Hr _]|(i & j & _ & Hij & [_ Hj]%sums_to_lt)]; [done | lia].
Qed.

Lemma two_sum_short_input_witness :
  (length [7] ≤ 1)%nat ∧ two_sum patrick [7] 14 = Ok [].
Proof.
  assert (H1 : (length [7] ≤ 1)%nat) by (simpl; lia).
  split; [exact H1|].
  exact (two_sum_short_input patrick [7] 14 H1).
Defined.

(** ** Further properties of the code *)

(** *** The hash-map scan is decided by a prefix of the input *)

Lemma David_for_loop_prefix l : ∀ d n target i j,
  David.for_loop target d (enumerate_from n l) = Ok [i; j] →
  ∃ m, j = (n + m)%nat ∧ (m < length l)%nat ∧
    ∀ extra, David.for_loop target d (enumerate_from n (take (S m) l ++ extra))
             = Ok [i; j].
Proof.
  induction l as [|x l IH]; intros d n target i j; simpl; [done|].
  destruct (contains d (target - x)) eqn:Hc.
  - unfold dict_getitem. destruct (d !! (target - x)) as [k|] eqn:Hk; [|done].
    intros [= <- <-]. exists 0%nat. split_and!; [lia|lia|].
    intros extra. done.
  - intros Hrest. destruct (IH _ _ _ _ _ Hrest) as (m & -> & Hm & Hext).
    exists (S m). split_and!; [lia|lia|].
    intros extra. apply Hext.
Qed.

Lemma hash_map_two_sum_David v nums target :
  hash_map_variant v → two_sum v nums target = David.two_sum nums target.
Proof.
  intros [-> | ->]; [done|]. simpl. unfold JoseAntonio.two_sum.
  by rewrite JoseAntonio_for_loop_eq.
Qed.

(** X1 — Hash-map variants: a returned pair [[i; j]] is decided by the
    elements up to position [j] alone.  Whatever follows position [j] can
    be replaced by anything (in particular, elements can be appended to
    the input) and the same pair is returned. *)
Theorem hash_map_prefix_decides v nums target i j :
  hash_map_variant v → two_sum v nums target = Ok [i; j] →
  (j < length nums)%nat ∧
  (∀ extra, two_sum v (take (S j) nums ++ extra) target = Ok [i; j]) ∧
  (∀ extra, two_sum v (nums ++ extra) target = Ok [i; j]).
Proof.
  intros Hv. rewrite (hash_map_two_sum_David v nums target Hv). intros Hr.
  destruct (David_for_loop_prefix nums ∅ 0%nat target i j Hr)
    as (m & Hj & Hm & Hext).
  simpl in Hj. subst m.
  assert (Hpre : ∀ extra,
    two_sum v (take (S j) nums ++ extra) target = Ok [i; j]).
  { intros extra. rewrite (hash_map_two_sum_David v _ target Hv). apply Hext. }
  split_and!; [done|done|].
  intros extra. rewrite <- (take_drop (S j) nums) at 1.
  rewrite <- app_assoc. apply Hpre.
Qed.

Lemma hash_map_prefix_decides_witness :
  hash_map_variant david ∧ two_sum david [3; 2; 4; 8] 6 = Ok [1; 2]%nat ∧
  (2 < length [3; 2; 4; 8])%nat ∧
  (∀ extra, two_sum david (take 3 [3; 2; 4; 8] ++ extra) 6 = Ok [1; 2]%nat) ∧
  (∀ extra, two_sum david ([3; 2; 4; 8] ++ extra) 6 = Ok [1; 2]%nat).
Proof.
  assert (H1 : hash_map_variant david) by (left; reflexivity).
  assert (H2 : two_sum david [3; 2; 4; 8] 6 = Ok [1; 2]%nat) by reflexivity.
  split; [exact H1|]. split; [exact H2|].
  exact (hash_map_prefix_decides david [3; 2; 4; 8] 6 1 2 H1 H2).
Defined.

(** *** Hash map against brute force *)

(** X2 — When a hash-map variant returns [[i; j]] and the brute-force
    variant returns [[i'; j']] on the same input, the brute-force pair
    starts no later ([i' ≤ i]) and the hash-map pair ends no later
    ([j ≤ j']); if they start at the same index they are the same pair. *)
Theorem hash_map_vs_brute_force v nums target i j i' j' :
  hash_map_variant v →
  two_sum v nums target = Ok [i; j] → two_sum jp nums target = Ok [i'; j'] →
  (i' ≤ i)%nat ∧ (j ≤ j')%nat ∧ (i' = i → j' = j).
Proof.
  intros Hv Hh Hb.
  destruct (hash_map_scan_result v nums target Hv)
    as [[Hr _]|(a & b & Hr & Hab & Hsum & Hminj & _)];
    rewrite Hh in Hr; [done|]. injection Hr as -> ->.
  destruct (JP_two_sum_spec nums target)
    as [[Hr' _]|(a' & b' & Hr' & Hab' & Hsum' & Hfirst)];
    simpl in Hb; rewrite Hb in Hr'; [done|]. injection Hr' as -> ->.
  pose proof (Hminj a' b' Hab' Hsum') as Hj.
  destruct (Hfirst a b Hab Hsum) as [Hlt|[-> Hle]]; split_and!; lia.
Qed.

Lemma hash_map_vs_brute_force_witness :
  hash_map_variant david ∧
  two_sum david [5; 1; 4; 0] 5 = Ok [1; 2]%nat ∧
  two_sum jp [5; 1; 4; 0] 5 = Ok [0; 3]%nat ∧
  (0 ≤ 1)%nat ∧ (2 ≤ 3)%nat ∧ (0%nat = 1%nat → 3%nat = 2%nat).
Proof.
  assert (H1 : hash_map_variant david) by (left; reflexivity).
  assert (H2 : two_sum david [5; 1; 4; 0] 5 = Ok [1; 2]%nat) by reflexivity.
  assert (H3 : two_sum jp [5; 1; 4; 0] 5 = Ok [0; 3]%nat) by reflexivity.
  split_and!; [exact H1 | exact H2 | exact H3 | ..];
    apply (hash_map_vs_brute_force david [5; 1; 4; 0] 5 1 2 0 3 H1 H2 H3).
Defined.

(** *** Results are already in ascending order *)

(** X3 — For every variant, sorting the returned list changes nothing:
    the raw result is either empty or already in ascending order. *)
Theorem normalize_two_sum v nums target :
  normalize (two_sum v nums target) = two_sum v nums target.
Proof.
  destruct (two_sum_some_pair v nums target)
    as [[-> _]|(i & j & -> & Hij & _)]; [done|].
  change (Ok (sorted Z.of_nat [i; j]) = Ok [i; j]).
  by destruct (sorted_pair i j Hij) as [-> _].
Qed.

(** *** The sorted list of (index, value) pairs in [patrick.py] *)

Lemma enumerate_from_index_ge {A} (l : list A) n :
  Forall (λ e, (n ≤ e.1)%nat) (enumerate_from n l).
Proof.
  revert n. induction l as [|x l IH]; intros n; simpl; constructor; [simpl; lia|].
  eapply Forall_impl; [apply IH|]. simpl. intros; lia.
Qed.

Lemma insert_by_entry_sorted n x l :
  StronglySorted entry_lt l → Forall (λ e, (n < e.1)%nat) l →
  StronglySorted entry_lt (insert_by snd (n, x) l).
Proof.
  induction 1 as [|y l Hl IH Hy]; intros Hidx; simpl.
  { repeat constructor. }
  apply Forall_cons in Hidx as [Hny Hidx].
  destruct (Z.leb_spec x y.2) as [Hxy|Hxy].
  - constructor; [by constructor|]. constructor.
    + unfold entry_lt. simpl. lia.
    + rewrite Forall_forall in *. intros z Hz.
      specialize (Hy z Hz). specialize (Hidx z Hz).
      unfold entry_lt in *. simpl in *. lia.
  - constructor; [by apply IH|]. rewrite insert_by_perm.
    constructor; [|done]. unfold entry_lt. simpl. lia.
Qed.

Lemma sorted_enumerate_from_entry_sorted (l : list Z) : ∀ n,
  StronglySorted entry_lt (sorted snd (enumerate_from n l)).
Proof.
  induction l as [|x l IH]; intros n; [constructor|].
  change (StronglySorted entry_lt
            (insert_by snd (n, x) (sorted snd (enumerate_from (S n) l)))).
  apply insert_by_entry_sorted; [apply IH|].
  rewrite sorted_perm.
  eapply Forall_impl; [apply enumerate_from_index_ge|]. simpl. intros; lia.
Qed.

(** X4 — [sorted_nums] in [patrick.py] holds every (index, value) pair of
    [nums] and nothing else, has the length of [nums], and is ordered by
    value with equal values in ascending order of their index. *)
Theorem sorted_nums_arrangement (nums : list Z) :
  let sorted_nums := sorted snd (enumerate nums) in
  length sorted_nums = length nums ∧
  (∀ k x, nums !! k = Some x ↔ ∃ p, sorted_nums !! p = Some (k, x)) ∧
  (∀ p q e1 e2, (p < q)%nat →
     sorted_nums !! p = Some e1 → sorted_nums !! q = Some e2 → entry_lt e1 e2).
Proof.
  split_and!.
  - apply sorted_nums_length.
  - intros k x. split; [apply sorted_nums_find|].
    intros [p Hp]. by eapply sorted_nums_lookup.
  - intros p q e1 e2 Hpq Hp Hq.
    eapply (StronglySorted_lookup_le entry_lt _ p q); [|done..].
    apply sorted_enumerate_from_entry_sorted.
Qed.

(** *** Which pair the two pointers find *)

Lemma Patrick_while_loop_extreme s target fuel : ∀ left right,
  StronglySorted (key_le snd) s →
  0 ≤ left → right < Z.of_nat (length s) → right - left ≤ Z.of_nat fuel →
  (∀ p q, (p < q)%nat → pos_sum s target p q →
     left ≤ Z.of_nat p ∧ Z.of_nat q ≤ right) →
  (Patrick.while_loop fuel s target left right = Ok [] ∧
   ∀ p q, (p < q)%nat → ¬ pos_sum s target p q) ∨
  (∃ p q e1 e2, (p < q)%nat ∧ s !! p = Some e1 ∧ s !! q = Some e2 ∧
     e1.2 + e2.2 = target ∧
     (∀ p' q', (p' < q')%nat → pos_sum s target p' q' →
        (p ≤ p')%nat ∧ (q' ≤ q)%nat) ∧
     Patrick.while_loop fuel s target left right = Ok (sorted Z.of_nat [e1.1; e2.1])).
Proof.
  assert (Hstop : ∀ left right,
    (∀ p q, (p < q)%nat → pos_sum s target p q →
       left ≤ Z.of_nat p ∧ Z.of_nat q ≤ right) →
    right ≤ left → ∀ p q, (p < q)%nat → ¬ pos_sum s target p q).
  { intros left right Hinv Hge p q Hpq Hsum. destruct (Hinv p q Hpq Hsum). lia. }
  induction fuel as [|fuel IH]; intros left right Hs Hl Hr Hfuel Hinv;
    cbn [Patrick.while_loop];
    destruct (Z.ltb_spec left right) as [Hlt|Hge]; [lia|eauto|..|eauto].
  destruct (lookup_lt_is_Some_2 s (Z.to_nat left)) as [e1 He1]; [lia|].
  destruct (lookup_lt_is_Some_2 s (Z.to_nat right)) as [e2 He2]; [lia|].
  rewrite (getitemZ_Some s left e1), (getitemZ_Some s right e2) by (done || lia).
  simpl.
  destruct (Z.eqb_spec (e1.2 + e2.2) target) as [Heq|Hne].
  { right. exists (Z.to_nat left), (Z.to_nat right), e1, e2.
    split_and!; [lia|done|done|done| |done].
    intros p' q' Hpq' Hsum'. destruct (Hinv p' q' Hpq' Hsum'). lia. }
  destruct (Z.ltb_spec (e1.2 + e2.2) target) as [Hsmall|Hbig].
  - apply IH; [done|lia|lia|lia|].
    intros p q Hpq Hsum. destruct (Hinv p q Hpq Hsum) as [Hp Hq].
    split; [|done]. destruct (decide (Z.of_nat p = left)) as [Hpl|]; [|lia].
    destruct Hsum as (e1' & e2' & Hp' & Hq' & Hsum). exfalso.
    replace p with (Z.to_nat left) in Hp' by lia. simplify_eq.
    assert (e2'.2 ≤ e2.2); [|lia].
    eapply (key_le_lookup s q (Z.to_nat right)); [done|lia|done..].
  - apply IH; [done|lia|lia|lia|].
    intros p q Hpq Hsum. destruct (Hinv p q Hpq Hsum) as [Hp Hq].
    split; [done|]. destruct (decide (Z.of_nat q = right)) as [Hqr|]; [|lia].
    destruct Hsum as (e1' & e2' & Hp' & Hq' & Hsum). exfalso.
    replace q with (Z.to_nat right) in Hq' by lia. simplify_eq.
    assert (e1.2 ≤ e1'.2); [|lia].
    eapply (key_le_lookup s (Z.to_nat left) p); [done|lia|done..].
Qed.

Lemma sorted_nums_entry_le (nums : list Z) p q e1 e2 :
  (p ≤ q)%nat →
  sorted snd (enumerate nums) !! p = Some e1 →
  sorted snd (enumerate nums) !! q = Some e2 → entry_le e1 e2.
Proof.
  intros Hpq Hp Hq. destruct (decide (p = q)) as [->|Hne].
  - left. congruence.
  - right. eapply (StronglySorted_lookup_le entry_lt _ p q); [|lia|done..].
    apply sorted_enumerate_from_entry_sorted.
Qed.

(** X5 — Sort-and-two-pointer variant: a returned pair consists of the
    two extreme elements among all elements that take part in any
    solution.  One of them, [lo], has the smallest value (and, among equal
    values, the smallest index), the other, [hi], the largest value (and,
    among equal values, the largest index); the result is their two
    indices in ascending order. *)
Theorem two_pointer_extreme_pair nums target r :
  two_sum patrick nums target = Ok r → r ≠ [] →
  ∃ lo hi : nat * Z,
    nums !! lo.1 = Some lo.2 ∧ nums !! hi.1 = Some hi.2 ∧
    lo.2 + hi.2 = target ∧ lo.1 ≠ hi.1 ∧
    r = sorted Z.of_nat [lo.1; hi.1] ∧
    ∀ k k' x, nums !! k = Some x → valid_pair nums target k k' →
      entry_le lo (k, x) ∧ entry_le (k, x) hi.
Proof.
  intros Hr Hne. simpl in Hr.
  unfold Patrick.two_sum, Patrick.two_sum_fuel in Hr.
  destruct (Patrick_while_loop_extreme (sorted snd (enumerate nums)) target
              (length nums) 0 (Z.of_nat (length nums) - 1))
    as [[Hr' _]|(p & q & [k1 x] & [k2 y] & Hpq & Hp & Hq & Hsum & Hext & Hr')].
  - apply sorted_sorted.
  - lia.
  - rewrite sorted_nums_length. lia.
  - lia.
  - intros p q Hpq (e1 & e2 & Hp & Hq & _).
    apply lookup_lt_Some in Hq. rewrite sorted_nums_length in Hq. lia.
  - rewrite Hr' in Hr. by injection Hr as <-.
  - rewrite Hr' in Hr. injection Hr as <-. cbn [fst snd] in *.
    exists (k1, x), (k2, y). cbn [fst snd].
    split_and!; [by eapply sorted_nums_lookup | by eapply sorted_nums_lookup
                | done | | done | ].
    + intros ->. pose proof (sorted_nums_inj nums p q k2 x y Hp Hq). lia.
    + intros k k' v Hk [Hne' (a & b & Ha & Hb & Hab)]. simplify_eq.
      destruct (sorted_nums_find nums k v Hk) as [pk Hpk].
      destruct (sorted_nums_find nums k' b Hb) as [pk' Hpk'].
      assert (Hbetween : (p ≤ pk ≤ q)%nat).
      { destruct (lt_eq_lt_dec pk pk') as [[Hlt|Heq]|Hlt].
        - destruct (Hext pk pk' Hlt); [|lia]. by exists (k, v), (k', b).
        - subst pk'. rewrite Hpk in Hpk'. by simplify_eq.
        - destruct (Hext pk' pk Hlt); [|lia].
          exists (k', b), (k, v). split_and!; [done|done|simpl; lia]. }
      split; [eapply (sorted_nums_entry_le nums p pk) | eapply (sorted_nums_entry_le nums pk q)];
        (done || lia).
Qed.

Lemma two_pointer_extreme_pair_witness :
  two_sum patrick [1; 1; 2; 2] 3 = Ok [0; 3]%nat ∧ [0; 3]%nat ≠ [] ∧
  ∃ lo hi : nat * Z,
    [1; 1; 2; 2] !! lo.1 = Some lo.2 ∧ [1; 1; 2; 2] !! hi.1 = Some hi.2 ∧
    lo.2 + hi.2 = 3 ∧ lo.1 ≠ hi.1 ∧
    [0; 3]%nat = sorted Z.of_nat [lo.1; hi.1] ∧
    ∀ k k' x, [1; 1; 2; 2] !! k = Some x → valid_pair [1; 1; 2; 2] 3 k k' →
      entry_le lo (k, x) ∧ entry_le (k, x) hi.
Proof.
  assert (H1 : two_sum patrick [1; 1; 2; 2] 3 = Ok [0; 3]%nat) by reflexivity.
  assert (H2 : [0; 3]%nat ≠ []) by discriminate.
  split; [exact H1|]. split; [exact H2|].
  exact (two_pointer_extreme_pair [1; 1; 2; 2] 3 [0; 3]%nat H1 H2).
Defined.

(** *** How long the two-pointer loop runs *)

(** X6 — The [while] loop of [patrick.py] finishes within
    [len(nums) - 1] iterations: with at least that much fuel the run is
    never cut short and gives the result of [two_sum]. *)
Theorem two_pointer_iteration_bound nums target fuel :
  (length nums - 1 ≤ fuel)%nat →
  Patrick.two_sum_fuel fuel nums target = Patrick.two_sum nums target ∧
  ∃ r, Patrick.two_sum_fuel fuel nums target = Ok r.
Proof.
  intros Hfuel.
  assert (Heq : Patrick.two_sum_fuel fuel nums target = Patrick.two_sum nums target).
  { unfold Patrick.two_sum, Patrick.two_sum_fuel.
    apply Patrick_while_loop_fuel; lia. }
  split; [done|]. rewrite Heq.
  destruct (Patrick_two_sum_spec nums target) as [[-> _]|(i & j & -> & _)];
    by eexists.
Qed.

Lemma two_pointer_iteration_bound_witness :
  (length [2; 7; 11; 15] - 1 ≤ 3)%nat ∧
  Patrick.two_sum_fuel 3 [2; 7; 11; 15] 9 = Patrick.two_sum [2; 7; 11; 15] 9 ∧
  ∃ r, Patrick.two_sum_fuel 3 [2; 7; 11; 15] 9 = Ok r.
Proof.
  assert (H1 : (length [2; 7; 11; 15] - 1 ≤ 3)%nat) by (simpl; lia).
  split; [exact H1|].
  exact (two_pointer_iteration_bound [2; 7; 11; 15] 9 3 H1).
Defined.

(** *** Adding a constant to every value *)

Section shift.
Variable c : Z.

#[local] Instance Z_add_inj : Inj (=) (=) (Z.add c).
Proof. intros x y. lia. Qed.

Let shift_entry : nat * Z → nat * Z := prod_map id (Z.add c).

Lemma enumerate_from_shift (l : list Z) : ∀ n,
  enumerate_from n (Z.add c <$> l) = shift_entry <$> enumerate_from n l.
Proof. induction l as [|x l IH]; intros n; simpl; [done|]. by rewrite IH. Qed.

Lemma David_for_loop_shift items : ∀ (d : gmap Z nat) target,
  David.for_loop (target + 2 * c) (kmap (Z.add c) d) (shift_entry <$> items)
  = David.for_loop target d items.
Proof.
  induction items as [|[i num] items IH]; intros d target; [done|].
  cbn [fmap list_fmap shift_entry prod_map fst snd id David.for_loop].
  replace (target + 2 * c - (c + num)) with (c + (target - num)) by lia.
  unfold contains, dict_getitem. rewrite (lookup_kmap (Z.add c)).
  case_bool_decide; [done|].
  rewrite <- (kmap_insert (Z.add c)). apply IH.
Qed.

Lemma getitem_shift (nums : list Z) i :
  getitem (Z.add c <$> nums) i = (x ← getitem nums i; Ok (c + x)).
Proof. unfold getitem. rewrite list_lookup_fmap. by destruct (nums !! i). Qed.

Lemma JP_for_j_shift nums target i js : ∀ after,
  JP.for_j (Z.add c <$> nums) (target + 2 * c) i js after
  = JP.for_j nums target i js after.
Proof.
  induction js as [|j js IH]; intros after; [done|].
  cbn [JP.for_j]. rewrite !getitem_shift.
  destruct (getitem nums i) as [a| |]; [|done..].
  destruct (getitem nums j) as [b| |]; [|done..]. simpl.
  rewrite IH.
  destruct (Z.eqb_spec (c + a + (c + b)) (target + 2 * c)),
    (Z.eqb_spec (a + b) target); (done || lia).
Qed.

Lemma JP_for_i_shift nums target idxs :
  JP.for_i (Z.add c <$> nums) (target + 2 * c) idxs = JP.for_i nums target idxs.
Proof.
  induction idxs as [|i idxs IH]; [done|].
  cbn [JP.for_i]. by rewrite JP_for_j_shift, length_fmap, IH.
Qed.

Lemma insert_by_shift e (l : list (nat * Z)) :
  insert_by snd (shift_entry e) (shift_entry <$> l)
  = shift_entry <$> insert_by snd e l.
Proof.
  induction l as [|y l IH]; [done|].
  cbn [fmap list_fmap insert_by]. rewrite IH.
  destruct e as [k x], y as [k' x']. simpl.
  destruct (Z.leb_spec (c + x) (c + x')), (Z.leb_spec x x'); (done || lia).
Qed.

Lemma sorted_shift (l : list (nat * Z)) :
  sorted snd (shift_entry <$> l) = shift_entry <$> sorted snd l.
Proof.
  induction l as [|e l IH]; [done|].
  unfold sorted in *. cbn [fmap list_fmap foldr].
  by rewrite IH, insert_by_shift.
Qed.

Lemma getitemZ_shift (s : list (nat * Z)) (i : Z) :
  getitemZ (shift_entry <$> s) i = (e ← getitemZ s i; Ok (shift_entry e)).
Proof.
  unfold getitemZ, getitem. rewrite length_fmap, list_lookup_fmap.
  destruct (_ <? 0); [done|]. by destruct (s !! _).
Qed.

Lemma Patrick_while_loop_shift s target fuel : ∀ left right,
  Patrick.while_loop fuel (shift_entry <$> s) (target + 2 * c) left right
  = Patrick.while_loop fuel s target left right.
Proof.
  induction fuel as [|fuel IH]; intros left right; [done|].
  cbn [Patrick.while_loop]. destruct (left <? right); [|done].
  rewrite !getitemZ_shift.
  destruct (getitemZ s left) as [[k1 x]| |]; [|done..].
  destruct (getitemZ s right) as [[k2 y]| |]; [|done..].
  rewrite !IH. simpl.
  destruct (Z.eqb_spec (c + x + (c + y)) (target + 2 * c)),
    (Z.eqb_spec (x + y) target); try (done || lia).
  destruct (Z.ltb_spec (c + x + (c + y)) (target + 2 * c)),
    (Z.ltb_spec (x + y) target); (done || lia).
Qed.

(** X7 — Adding a constant [c] to every element of [nums] and [2 * c]
    to [target] does not change the result of any of the four variants. *)
Theorem two_sum_shift v nums target :
  two_sum v (Z.add c <$> nums) (target + 2 * c) = two_sum v nums target.
Proof.
  destruct v; simpl.
  - unfold David.two_sum, enumerate. rewrite enumerate_from_shift.
    rewrite <- (David_for_loop_shift (enumerate_from 0 nums) ∅ target).
    by rewrite kmap_empty.
  - unfold JoseAntonio.two_sum, enumerate.
    rewrite !JoseAntonio_for_loop_eq, enumerate_from_shift.
    rewrite <- (David_for_loop_shift (enumerate_from 0 nums) ∅ target).
    by rewrite kmap_empty.
  - unfold JP.two_sum. by rewrite length_fmap, JP_for_i_shift.
  - unfold Patrick.two_sum, Patrick.two_sum_fuel, enumerate.
    by rewrite length_fmap, enumerate_from_shift, sorted_shift,
      Patrick_while_loop_shift.
Qed.

End shift.

(** *** Agreement between the variants on every input *)

(** X8 — On every input, also one with several solutions, the four
    variants agree on whether a pair is found: one of them returns the
    empty list exactly when every other one does. *)
Theorem two_sum_found_agree v v' nums target :
  two_sum v nums target = Ok [] ↔ two_sum v' nums target = Ok [].
Proof.
  assert (Hone : ∀ w w', two_sum w nums target = Ok [] →
                         two_sum w' nums target = Ok []).
  { intros w w' Hw.
    destruct (two_sum_some_pair w nums target) as [[_ Hno]|(i & j & Hr & _)];
      [|congruence].
    destruct (two_sum_some_pair w' nums target)
      as [[Hr' _]|(i & j & _ & Hij & Hsum)]; [done|].
    by destruct (Hno i j Hij). }
  split; apply Hone.
Qed.

(** X9 — On a two-element input every variant returns [[0; 1]] when the
    two values add up to [target] and the empty list otherwise. *)
Theorem two_sum_two_elements v (a b target : Z) :
  two_sum v [a; b] target = if a + b =? target then Ok [0; 1]%nat else Ok [].
Proof.
  destruct (two_sum_some_pair v [a; b] target)
    as [[-> Hno]|(i & j & -> & Hij & Hsum)].
  - destruct (Z.eqb_spec (a + b) target) as [Hab|]; [|done].
    destruct (Hno 0%nat 1%nat); [lia|]. by exists a, b.
  - apply sums_to_lt in Hsum as Hlt. simpl in Hlt.
    assert (i = 0%nat ∧ j = 1%nat) as [-> ->] by lia.
    destruct Hsum as (a' & b' & [= <-] & [= <-] & Hab).
    by destruct (Z.eqb_spec (a + b) target).
Qed.
